(** * OCR metrics: CER and WER over normalised Jawi text

    A shallow embedding of [ocr_metrics/metrics.py]:
    [normalize_text], [levenshtein_distance], [cer] and [wer], with the
    aliases [cer_pair] and [wer_pair].

    Python values are embedded as follows.
    - [str] is a sequence of Unicode code points: [list Z].
    - [int] is unbounded: [Z].  Indices produced by [range] are naturals.
    - A list indexed and updated in place is a [list] read with [!!] and
      written with [<[ _ := _ ]>]; an index out of range raises
      [IndexError], which is written out in [index], [tget] and [tset].
    - Exceptions are the left-hand side of a small error monad, [result].
    - The quotient [dist / len(ref)] of two ints is kept as the exact
      rational in [Q]; Python returns the double nearest to it.
    - [normalize_text] tells [None], a [str] and other objects apart, so
      its argument is a [value]; [cer] and [wer] are taken at their
      declared argument type [str]. *)

From Stdlib Require Import QArith String Ascii.
From stdpp Require Import base list numbers gmap.

Local Open Scope Z_scope.

(** ** Exceptions and the error monad *)

Inductive exn : Type :=
| TypeError
| ValueError
| IndexError.

Inductive result (T : Type) : Type :=
| Ok (v : T)
| Raise (e : exn).

Arguments Ok {T} v.
Arguments Raise {T} e.

#[global] Instance result_ret : MRet result := λ T v, Ok v.

#[global] Instance result_bind : MBind result := λ T U f r,
  match r with
  | Ok v => f v
  | Raise e => Raise e
  end.

(** [for x in xs: body], threading the state the body mutates. *)
Fixpoint for_in {S : Type} (xs : list nat) (body : nat → S → result S) (s : S)
  : result S :=
  match xs with
  | [] => Ok s
  | x :: xs' => s' ← body x s; for_in xs' body s'
  end.

(** [range(a, b)] and [range(b)]. *)
Definition range (a b : nat) : list nat := seq a (b - a).

(** [l[i]] for a natural index. *)
Definition index {T : Type} (l : list T) (i : nat) : result T :=
  match l !! i with
  | Some x => Ok x
  | None => Raise IndexError
  end.

(** ** The table of the dynamic program *)

Abbreviation table := (list (list Z)).

(** [[[0] * (n + 1) for _ in range(m + 1)]]: the comprehension builds a
    fresh row per iteration, so rows are not aliased. *)
Definition new_table (m n : nat) : table :=
  replicate (m + 1) (replicate (n + 1) 0).

(** [dp[i][j]] *)
Definition tget (dp : table) (i j : nat) : result Z :=
  row ← index dp i; index row j.

(** [dp[i][j] = v] *)
Definition tset (dp : table) (i j : nat) (v : Z) : result table :=
  row ← index dp i;
  if decide (j < length row)%nat
  then Ok (<[i := <[j := v]> row]> dp)
  else Raise IndexError.

(** Python's [min] of three ints. *)
Definition min3 (a b c : Z) : Z := Z.min a (Z.min b c).

(** ** levenshtein_distance *)

Section Levenshtein.
Context {A : Type} `{EqDecision A}.

(** [int(x != y)] *)
Definition cost (x y : A) : Z := if decide (x ≠ y) then 1 else 0.

Definition levenshtein_distance (s1 s2 : list A) : result Z :=
  let m := length s1 in
  let n := length s2 in
  let dp := new_table m n in
  dp ← for_in (range 0 (m + 1)) (λ i dp, tset dp i 0 (Z.of_nat i)) dp;
  dp ← for_in (range 0 (n + 1)) (λ j dp, tset dp 0 j (Z.of_nat j)) dp;
  dp ← for_in (range 1 (m + 1)) (λ i dp,
         for_in (range 1 (n + 1)) (λ j dp,
           x ← index s1 (i - 1);
           y ← index s2 (j - 1);
           let c := cost x y in
           del ← tget dp (i - 1) j;
           ins ← tget dp i (j - 1);
           sub ← tget dp (i - 1) (j - 1);
           tset dp i j (min3 (del + 1) (ins + 1) (sub + c))) dp) dp;
  tget dp m n.

End Levenshtein.

(** ** Text *)

(** A [str]: the sequence of its code points. *)
Abbreviation unicode := (list Z).

(** A literal of ASCII characters as a [str]. *)
Definition str (s : string) : unicode :=
  (λ a, Z.of_N (N_of_ascii a)) <$> list_ascii_of_string s.

Definition is_ascii (c : Z) : bool := (0 <=? c) && (c <? 128).

(** Whitespace below U+0080: TAB, LF, VT, FF, CR, FS, GS, RS, US, SPACE. *)
Definition ascii_space (c : Z) : bool :=
  ((9 <=? c) && (c <=? 13)) || ((28 <=? c) && (c <=? 32)).

(** Decimal digits below U+0080. *)
Definition ascii_digit (c : Z) : bool := (48 <=? c) && (c <=? 57).

(** The character database of the Python runtime, which is not part of
    this repository: [nfc] is [unicodedata.normalize('NFC', _)];
    [isspace] is the class [\s] of [re] on [str] patterns, which is also
    the whitespace of [str.strip()] and [str.split()]; [isdecimal] is the
    class [\d].  The laws fix what every version of the database does on
    ASCII. *)
Class UnicodeData : Type := {
  nfc : unicode → unicode;
  isspace : Z → bool;
  isdecimal : Z → bool;
  nfc_ascii : ∀ s, forallb is_ascii s = true → nfc s = s;
  isspace_ascii : ∀ c, is_ascii c = true → isspace c = ascii_space c;
  isdecimal_ascii : ∀ c, is_ascii c = true → isdecimal c = ascii_digit c
}.

(** [string.punctuation] *)
Definition string_punctuation : unicode :=
  str "!" ++ [34] ++ str "#$%&'()*+,-./:;<=>?@[\]^_`{|}~".

(** The literal of line 47: U+060C ARABIC COMMA, U+061B ARABIC SEMICOLON,
    U+061F ARABIC QUESTION MARK, U+066A ARABIC PERCENT SIGN,
    U+06D4 ARABIC FULL STOP, U+066C ARABIC THOUSANDS SEPARATOR. *)
Definition arabic_punctuation : unicode :=
  [1548; 1563; 1567; 1642; 1748; 1644].

(** [str.maketrans('', '', z)]: a dict that sends the ordinal of every
    character of [z] to [None]. *)
Definition maketrans (z : unicode) : gmap Z (option Z) :=
  list_to_map ((λ c, (c, None)) <$> z).

(** [s.translate(tbl)]: a character mapped to [None] is deleted, one
    mapped to an ordinal is replaced, the others are kept. *)
Definition translate (tbl : gmap Z (option Z)) (s : unicode) : unicode :=
  s ≫= λ c,
    match tbl !! c with
    | Some None => []
    | Some (Some c') => [c']
    | None => [c]
    end.

(** A Python object as [normalize_text] tells them apart: [None], a
    [str], or any other object, of which only the outcome of [str(_)]
    matters ([None] when the conversion raises). *)
Inductive value : Type :=
| VNone
| VStr (s : unicode)
| VObj (converted : option unicode).

Section Normalizer.
Context `{UnicodeData}.

(** [re.sub(r'\s+', ' ', s)]: the scan replaces each leftmost, longest
    run of whitespace by one U+0020; [in_run] says that the previous
    character belonged to the run being replaced. *)
Fixpoint sub_spaces (in_run : bool) (s : unicode) : unicode :=
  match s with
  | [] => []
  | c :: s' =>
      if isspace c
      then if in_run then sub_spaces true s' else 32 :: sub_spaces true s'
      else c :: sub_spaces false s'
  end.

(** [re.sub(r'\d', '', s)] *)
Definition sub_digits (s : unicode) : unicode :=
  filter (λ c, isdecimal c = false) s.

Fixpoint lstrip (s : unicode) : unicode :=
  match s with
  | [] => []
  | c :: s' => if isspace c then lstrip s' else s
  end.

Definition rstrip (s : unicode) : unicode := reverse (lstrip (reverse s)).

(** [s.strip()] *)
Definition strip (s : unicode) : unicode := rstrip (lstrip s).

(** [s.split()]: [cur] is the word being read, most recent character
    first. *)
Fixpoint split_from (cur : unicode) (s : unicode) : list unicode :=
  match s with
  | [] => match cur with [] => [] | _ => [reverse cur] end
  | c :: s' =>
      if isspace c
      then match cur with
           | [] => split_from [] s'
           | _ => reverse cur :: split_from [] s'
           end
      else split_from (c :: cur) s'
  end.

Definition split (s : unicode) : list unicode := split_from [] s.

Definition normalize_text (text : value) (remove_punctuation remove_numbers : bool)
  : result unicode :=
  text ← match text with
         | VNone => Raise TypeError
         | VStr s => Ok s
         | VObj (Some s) => Ok s
         | VObj None => Raise TypeError
         end;
  let text := nfc text in
  let text :=
    if remove_punctuation
    then
      let all_punctuation := string_punctuation ++ arabic_punctuation in
      let translator := maketrans all_punctuation in
      translate translator text
    else text in
  let text := strip (sub_spaces false text) in
  let text := if remove_numbers then strip (sub_digits text) else text in
  Ok text.

(** The quotient of two ints, before rounding to a double. *)
Definition true_div (a b : Z) : Q := (inject_Z a / inject_Z b)%Q.

Definition cer (reference hypothesis : unicode)
    (normalize remove_punctuation remove_numbers : bool) : result Q :=
  '(reference, hypothesis) ←
    (if normalize
     then
       r ← normalize_text (VStr reference) remove_punctuation remove_numbers;
       h ← normalize_text (VStr hypothesis) remove_punctuation remove_numbers;
       Ok (r, h)
     else Ok (reference, hypothesis));
  let ref_chars := reference in
  let hyp_chars := hypothesis in
  if decide (length ref_chars = 0%nat)
  then if decide (length hyp_chars = 0%nat) then Ok 0%Q else Raise ValueError
  else
    dist ← levenshtein_distance ref_chars hyp_chars;
    Ok (true_div dist (Z.of_nat (length ref_chars))).

Definition wer (reference hypothesis : unicode)
    (normalize remove_punctuation remove_numbers : bool) : result Q :=
  '(reference, hypothesis) ←
    (if normalize
     then
       r ← normalize_text (VStr reference) remove_punctuation remove_numbers;
       h ← normalize_text (VStr hypothesis) remove_punctuation remove_numbers;
       Ok (r, h)
     else Ok (reference, hypothesis));
  let ref_words := split reference in
  let hyp_words := split hypothesis in
  if decide (length ref_words = 0%nat)
  then if decide (length hyp_words = 0%nat) then Ok 0%Q else Raise ValueError
  else
    dist ← levenshtein_distance ref_words hyp_words;
    Ok (true_div dist (Z.of_nat (length ref_words))).

(** Backward compatibility aliases *)
Definition cer_pair := cer.
Definition wer_pair := wer.

End Normalizer.

(** The database cut down to ASCII: composition leaves the text as it
    is, and only ASCII whitespace and digits are classified.  It agrees
    with Python on every ASCII text and serves to run the functions. *)
Definition ascii_data : UnicodeData := {|
  nfc := λ s, s;
  isspace := ascii_space;
  isdecimal := ascii_digit;
  nfc_ascii := λ _ _, eq_refl;
  isspace_ascii := λ _ _, eq_refl;
  isdecimal_ascii := λ _ _, eq_refl
|}.

(** ** The specification of the edit distance *)

Section EditDistance.
Context {A : Type} `{EqDecision A}.

(** A table [T] is the Wagner-Fischer table of [s1] and [s2] when it has
    the base row and column and obeys the recurrence, with the cost 0
    for equal elements and 1 otherwise. *)
Definition is_wagner_fischer (s1 s2 : list A) (T : nat → nat → Z) : Prop :=
  (∀ i, (i ≤ length s1)%nat → T i 0%nat = Z.of_nat i) ∧
  (∀ j, (j ≤ length s2)%nat → T 0%nat j = Z.of_nat j) ∧
  (∀ i j x y, s1 !! i = Some x → s2 !! j = Some y →
     T (S i) (S j) =
       Z.min (T i (S j) + 1)
         (Z.min (T (S i) j + 1) (T i j + (if decide (x = y) then 0 else 1)))).

(** The table itself, by recursion on the row and then on the column.
    Outside the two sequences the substitution cost is taken as 1. *)
Definition cost_at (s1 s2 : list A) (i j : nat) : Z :=
  match s1 !! i, s2 !! j with
  | Some x, Some y => if decide (x = y) then 0 else 1
  | _, _ => 1
  end.

Fixpoint wagner_fischer (s1 s2 : list A) (i : nat) : nat → Z :=
  match i with
  | O => λ j, Z.of_nat j
  | S i' =>
      fix row (j : nat) : Z :=
        match j with
        | O => Z.of_nat (S i')
        | S j' =>
            Z.min (wagner_fischer s1 s2 i' (S j') + 1)
              (Z.min (row j' + 1) (wagner_fischer s1 s2 i' j' + cost_at s1 s2 i' j'))
        end
  end.

(** The edit distance by recursion on the two sequences, first elements
    first. *)
Fixpoint distance (a : list A) : list A → Z :=
  match a with
  | [] => λ b, Z.of_nat (length b)
  | x :: a' =>
      fix row (b : list A) : Z :=
        match b with
        | [] => Z.of_nat (length (x :: a'))
        | y :: b' =>
            Z.min (distance a' b + 1)
              (Z.min (row b' + 1) (distance a' b' + cost x y))
        end
  end.

(** [edit a b n]: some script of insertions, deletions and substitutions
    of total cost [n] turns [a] into [b]. *)
Inductive edit : list A → list A → Z → Prop :=
| edit_nil : edit [] [] 0
| edit_del x a b n : edit a b n → edit (x :: a) b (n + 1)
| edit_ins y a b n : edit a b n → edit a (y :: b) (n + 1)
| edit_sub x y a b n : edit a b n → edit (x :: a) (y :: b) (n + cost x y).

(** The cell [dp[i][j]], when it exists. *)
Definition cell (dp : table) (i j : nat) : option Z :=
  row ← dp !! i; row !! j.

(** [dp] has rows [0..m], each with columns [0..n]. *)
Definition dims (dp : table) (m n : nat) : Prop :=
  ∀ i, (i ≤ m)%nat → ∃ row, dp !! i = Some row ∧ length row = S n.

(** The cells written before the step [(i, j)] of the fill. *)
Definition filled (i j i' j' : nat) : Prop :=
  i' = 0%nat ∨ j' = 0%nat ∨ (i' < i)%nat ∨ (i' = i ∧ (j' < j)%nat).

End EditDistance.

(** ** The specification of the normalizer *)

(** Two databases classify every character of [s] alike. *)
Definition same_classes (D1 D2 : UnicodeData) (s : unicode) : Prop :=
  Forall (λ c, @isspace D1 c = @isspace D2 c ∧ @isdecimal D1 c = @isdecimal D2 c) s.

(** The 32 ASCII punctuation marks: U+0021..U+002F, U+003A..U+0040,
    U+005B..U+0060 and U+007B..U+007E. *)
Definition ascii_punctuation_set : list Z :=
  seqZ 33 15 ++ seqZ 58 7 ++ seqZ 91 6 ++ seqZ 123 4.

(** Arabic comma, semicolon, question mark, percent sign, full stop and
    thousands separator. *)
Definition arabic_punctuation_set : list Z :=
  [1548; 1563; 1567; 1642; 1748; 1644].

Section NormalizerSpec.
Context `{UnicodeData}.

(** Every character is below U+0080. *)
Definition ascii_text (s : unicode) : Prop := Forall (λ c, is_ascii c = true) s.

(** Step 3: removal of the punctuation characters. *)
Definition strip_punctuation (enabled : bool) (s : unicode) : unicode :=
  if enabled
  then filter (λ c, c ∉ ascii_punctuation_set ++ arabic_punctuation_set) s
  else s.

(** A run of whitespace that starts [s], and what follows it. *)
Fixpoint skip_run (s : unicode) : unicode :=
  match s with
  | [] => []
  | c :: s' => if isspace c then skip_run s' else s
  end.

(** Step 4, first half: every maximal run of whitespace becomes one
    U+0020.  The recursion is on a bound of the length. *)
Fixpoint collapse_runs (fuel : nat) (s : unicode) : unicode :=
  match fuel, s with
  | O, _ | _, [] => []
  | S fuel', c :: s' =>
      if isspace c
      then 32 :: collapse_runs fuel' (skip_run s')
      else c :: collapse_runs fuel' s'
  end.

(** No whitespace at the start and none at the end. *)
Definition trimmed (s : unicode) : Prop :=
  s = [] ∨
  ∃ c d, head s = Some c ∧ last s = Some d ∧ isspace c = false ∧ isspace d = false.

(** [trim s] is the longest part of [s] between leading and trailing
    whitespace: [s] is whitespace, [trim s], whitespace. *)
Definition is_trim_of (s t : unicode) : Prop :=
  trimmed t ∧
  ∃ l r, s = l ++ t ++ r ∧
         Forall (λ c, isspace c = true) l ∧ Forall (λ c, isspace c = true) r.

(** Step 5: removal of the decimal digits, then trimming. *)
Definition strip_digits (enabled : bool) (s : unicode) : unicode :=
  if enabled then strip (filter (λ c, isdecimal c = false) s) else s.

(** The pipeline of steps 2 to 5 on a string. *)
Definition normalized (remove_punctuation remove_numbers : bool) (s : unicode)
  : unicode :=
  strip_digits remove_numbers
    (strip (collapse_runs (length (strip_punctuation remove_punctuation (nfc s)))
              (strip_punctuation remove_punctuation (nfc s)))).

(** Steps 1 and 2 of the metrics: the string that is tokenized. *)
Definition prepared (normalize remove_punctuation remove_numbers : bool)
    (s : unicode) : unicode :=
  if normalize then normalized remove_punctuation remove_numbers s else s.

End NormalizerSpec.

Section NormalForm.
Context `{UnicodeData}.

(** Every whitespace character of [s] is U+0020 and stands alone: what
    follows it is the end or a character that is not whitespace. *)
Fixpoint single_spaced (s : unicode) : Prop :=
  match s with
  | [] => True
  | c :: s' =>
      (isspace c = true →
         c = 32 ∧ match s' with [] => True | d :: _ => isspace d = false end) ∧
      single_spaced s'
  end.

End NormalForm.

Example lev_kitten :
  levenshtein_distance [1; 2; 3; 3; 4; 5]%nat [6; 2; 3; 3; 2; 5; 7]%nat = Ok 3.
Proof. vm_compute. reflexivity. Qed.

Example norm_hello :
  normalize_text (H := ascii_data) (VStr (str "Hello, World! 123")) true true = Ok (str "Hello World").
Proof. vm_compute. reflexivity. Qed.

Example norm_a1b :
  normalize_text (H := ascii_data) (VStr (str "a 1 b")) true true = Ok (str "a  b").
Proof. vm_compute. reflexivity. Qed.

Example cer_hallo : cer (H := ascii_data) (str "hello") (str "hallo") true true true = Ok (1 # 5)%Q.
Proof. vm_compute. reflexivity. Qed.

Example wer_hello : wer (H := ascii_data) (str "hello world") (str "hello") true true true = Ok (1 # 2)%Q.
Proof. vm_compute. reflexivity. Qed.

(** ** Loops and table cells *)

Lemma for_in_seq {S : Type} (I : nat → S → Prop) (body : nat → S → result S)
    (k a : nat) (s : S) :
  I a s →
  (∀ i s0, (a ≤ i < a + k)%nat → I i s0 → ∃ s1, body i s0 = Ok s1 ∧ I (Datatypes.S i) s1) →
  ∃ s', for_in (seq a k) body s = Ok s' ∧ I (a + k)%nat s'.
Proof.
  revert a s. induction k as [|k IH]; intros a s Ha Hstep; simpl.
  - exists s. by rewrite Nat.add_0_r.
  - destruct (Hstep a s) as (s1 & -> & H1); [lia | done |]. simpl.
    destruct (IH (Datatypes.S a) s1) as (s' & Hs' & HI); [done | |].
    + intros i s0 Hi. apply Hstep. lia.
    + exists s'. split; [done |]. by replace (a + Datatypes.S k)%nat with (Datatypes.S a + k)%nat by lia.
Qed.

Lemma tget_cell (dp : table) (i j : nat) (v : Z) :
  cell dp i j = Some v → tget dp i j = Ok v.
Proof.
  unfold cell, tget, index. destruct (dp !! i) as [row|]; simpl; [|done].
  by intros ->.
Qed.

Lemma tset_spec (dp : table) (m n i j : nat) (v : Z) :
  dims dp m n → (i ≤ m)%nat → (j ≤ n)%nat →
  ∃ dp', tset dp i j v = Ok dp' ∧ dims dp' m n ∧ cell dp' i j = Some v ∧
         ∀ i' j', (i', j') ≠ (i, j) → cell dp' i' j' = cell dp i' j'.
Proof.
  intros Hd Hi Hj. destruct (Hd i Hi) as (row & Hrow & Hlen).
  exists (<[i := <[j := v]> row]> dp).
  assert (Hil : (i < length dp)%nat) by (by eapply lookup_lt_Some).
  split; [|split; [|split]].
  - unfold tset, index. rewrite Hrow. simpl. rewrite decide_True; [done | lia].
  - intros k Hk. destruct (decide (k = i)) as [->|Hne].
    + exists (<[j := v]> row). rewrite list_lookup_insert_eq by done.
      by rewrite length_insert.
    + rewrite list_lookup_insert_ne by done. by apply Hd.
  - unfold cell. rewrite list_lookup_insert_eq by done. simpl.
    apply list_lookup_insert_eq. lia.
  - intros i' j' Hne. unfold cell. destruct (decide (i' = i)) as [->|Hi'].
    + rewrite list_lookup_insert_eq by done. rewrite Hrow. simpl.
      apply list_lookup_insert_ne. congruence.
    + by rewrite list_lookup_insert_ne.
Qed.

Lemma new_table_dims (m n : nat) : dims (new_table m n) m n.
Proof.
  intros i Hi. exists (replicate (n + 1) 0). unfold new_table. split.
  - apply lookup_replicate_2. lia.
  - rewrite length_replicate. lia.
Qed.

Lemma init_column (m n : nat) (dp : table) :
  dims dp m n →
  ∃ dp', for_in (range 0 (m + 1)) (λ i dp, tset dp i 0 (Z.of_nat i)) dp = Ok dp' ∧
         dims dp' m n ∧ ∀ i, (i ≤ m)%nat → cell dp' i 0 = Some (Z.of_nat i).
Proof.
  intros Hd. unfold range. rewrite Nat.sub_0_r.
  destruct (for_in_seq
    (λ k dp, dims dp m n ∧ ∀ i, (i < k)%nat → (i ≤ m)%nat → cell dp i 0 = Some (Z.of_nat i))
    (λ i dp, tset dp i 0 (Z.of_nat i)) (m + 1) 0 dp) as (dp' & Hrun & Hd' & Hc).
  - split; [done |]. lia.
  - intros i s0 Hi [Hd0 Hc0].
    destruct (tset_spec s0 m n i 0 (Z.of_nat i) Hd0) as (s1 & Hs & Hd1 & Hv & Hother); [lia.. |].
    exists s1. split; [done |]. split; [done |].
    intros k Hk Hkm. destruct (decide (k = i)) as [->|Hne]; [done |].
    rewrite Hother by congruence. apply Hc0; lia.
  - exists dp'. split; [done |]. split; [done |]. intros i Hi. apply Hc; lia.
Qed.

Lemma init_row (m n : nat) (dp : table) :
  dims dp m n →
  (∀ i, (i ≤ m)%nat → cell dp i 0 = Some (Z.of_nat i)) →
  ∃ dp', for_in (range 0 (n + 1)) (λ j dp, tset dp 0 j (Z.of_nat j)) dp = Ok dp' ∧
         dims dp' m n ∧
         (∀ i, (i ≤ m)%nat → cell dp' i 0 = Some (Z.of_nat i)) ∧
         (∀ j, (j ≤ n)%nat → cell dp' 0 j = Some (Z.of_nat j)).
Proof.
  intros Hd Hcol. unfold range. rewrite Nat.sub_0_r.
  destruct (for_in_seq
    (λ k dp, dims dp m n ∧
             (∀ i, (i ≤ m)%nat → cell dp i 0 = Some (Z.of_nat i)) ∧
             ∀ j, (j < k)%nat → (j ≤ n)%nat → cell dp 0 j = Some (Z.of_nat j))
    (λ j dp, tset dp 0 j (Z.of_nat j)) (n + 1) 0 dp) as (dp' & Hrun & Hd' & Hc & Hr).
  - split; [done |]. split; [done |]. lia.
  - intros j s0 Hj (Hd0 & Hc0 & Hr0).
    destruct (tset_spec s0 m n 0 j (Z.of_nat j) Hd0) as (s1 & Hs & Hd1 & Hv & Hother); [lia.. |].
    exists s1. split; [done |]. split; [done |]. split.
    + intros i Hi. destruct (decide ((i, 0%nat) = (0%nat, j))) as [Heq|Hne].
      * injection Heq as -> <-. done.
      * rewrite Hother by done. by apply Hc0.
    + intros k Hk Hkn. destruct (decide (k = j)) as [->|Hne]; [done |].
      rewrite Hother by congruence. apply Hr0; lia.
  - exists dp'. split; [done |]. split; [done |]. split; [done |].
    intros j Hj. apply Hr; lia.
Qed.

Section Refinement.
Context {A : Type} `{EqDecision A}.
Variables (s1 s2 : list A) (T : nat → nat → Z).
Hypothesis HT : is_wagner_fischer s1 s2 T.

Let m := length s1.
Let n := length s2.

(** The invariant of the fill: the table has its dimensions and every
    cell written so far holds the entry of [T]. *)
Definition fill_inv (i j : nat) (dp : table) : Prop :=
  dims dp m n ∧
  ∀ i' j', (i' ≤ m)%nat → (j' ≤ n)%nat → filled i j i' j' →
           cell dp i' j' = Some (T i' j').

Lemma cost_decide (x y : A) : cost x y = if decide (x = y) then 0 else 1.
Proof. unfold cost. repeat case_decide; done. Qed.

Lemma fill_step (i j : nat) (dp : table) :
  (1 ≤ i ≤ m)%nat → (1 ≤ j ≤ n)%nat → fill_inv i j dp →
  ∃ dp',
    (x ← index s1 (i - 1);
     y ← index s2 (j - 1);
     let c := cost x y in
     del ← tget dp (i - 1) j;
     ins ← tget dp i (j - 1);
     sub ← tget dp (i - 1) (j - 1);
     tset dp i j (min3 (del + 1) (ins + 1) (sub + c))) = Ok dp' ∧
    fill_inv i (S j) dp'.
Proof.
  intros Hi Hj [Hd Hc].
  destruct (lookup_lt_is_Some_2 s1 (i - 1)) as [x Hx]; [fold m; lia |].
  destruct (lookup_lt_is_Some_2 s2 (j - 1)) as [y Hy]; [fold n; lia |].
  unfold index at 1 2. rewrite Hx, Hy. simpl.
  rewrite (tget_cell dp (i - 1) j (T (i - 1)%nat j)); [simpl | apply Hc; [lia.. | right; right; left; lia]].
  rewrite (tget_cell dp i (j - 1) (T i (j - 1)%nat)); [simpl | apply Hc; [lia.. | right; right; right; lia]].
  rewrite (tget_cell dp (i - 1) (j - 1) (T (i - 1)%nat (j - 1)%nat)); [simpl | apply Hc; [lia.. | right; right; left; lia]].
  destruct (tset_spec dp m n i j
    (min3 (T (i - 1)%nat j + 1) (T i (j - 1)%nat + 1) (T (i - 1)%nat (j - 1)%nat + cost x y)) Hd)
    as (dp' & Hs & Hd' & Hv & Hother); [lia.. |].
  exists dp'. split; [done |]. split; [done |].
  intros i' j' Hi' Hj' Hf. destruct (decide ((i', j') = (i, j))) as [Heq|Hne].
  - injection Heq as -> ->. rewrite Hv. f_equal.
    destruct HT as (_ & _ & Hrec).
    specialize (Hrec (i - 1)%nat (j - 1)%nat x y Hx Hy).
    replace (S (i - 1)) with i in Hrec by lia.
    replace (S (j - 1)) with j in Hrec by lia.
    rewrite Hrec, cost_decide. done.
  - rewrite Hother by done. apply Hc; [done.. |].
    assert (i' ≠ i ∨ j' ≠ j) by (destruct (decide (i' = i)); [right | left]; congruence).
    unfold filled in *. lia.
Qed.

Lemma fill_row (i : nat) (dp : table) :
  (1 ≤ i ≤ m)%nat → fill_inv i 1 dp →
  ∃ dp',
    for_in (range 1 (n + 1)) (λ j dp,
      x ← index s1 (i - 1);
      y ← index s2 (j - 1);
      let c := cost x y in
      del ← tget dp (i - 1) j;
      ins ← tget dp i (j - 1);
      sub ← tget dp (i - 1) (j - 1);
      tset dp i j (min3 (del + 1) (ins + 1) (sub + c))) dp = Ok dp' ∧
    fill_inv (S i) 1 dp'.
Proof.
  intros Hi Hinv. unfold range. replace (n + 1 - 1)%nat with n by lia.
  edestruct (for_in_seq (λ j dp, fill_inv i j dp)) as (dp' & Hrun & [Hd Hc]);
    [exact Hinv | | exists dp'; split; [exact Hrun |]].
  - intros j s0 Hj Hs0. apply fill_step; [done | lia | done].
  - split; [done |]. intros i' j' Hi' Hj' Hf. apply Hc; [done.. |].
    unfold filled in *. lia.
Qed.

Lemma levenshtein_distance_table :
  levenshtein_distance s1 s2 = Ok (T m n).
Proof.
  unfold levenshtein_distance. fold m n.
  destruct (init_column m n (new_table m n) (new_table_dims m n)) as (dp1 & -> & Hd1 & Hc1).
  simpl.
  destruct (init_row m n dp1 Hd1 Hc1) as (dp2 & -> & Hd2 & Hc2 & Hr2).
  simpl.
  assert (Hinv : fill_inv 1 1 dp2).
  { destruct HT as (Hb1 & Hb2 & _). split; [done |].
    intros i' j' Hi' Hj' [->|[->|[?|[_ ?]]]].
    - rewrite Hb2 by done. by apply Hr2.
    - rewrite Hb1 by done. by apply Hc2.
    - replace i' with 0%nat by lia. rewrite Hb2 by done. by apply Hr2.
    - replace j' with 0%nat by lia. rewrite Hb1 by done. by apply Hc2. }
  unfold range at 1. replace (m + 1 - 1)%nat with m by lia.
  edestruct (for_in_seq (λ i dp, fill_inv i 1 dp)) as (dp3 & -> & [Hd3 Hc3]);
    [exact Hinv | |].
  - intros i s0 Hi Hs0. apply fill_row; [lia | done].
  - simpl. apply tget_cell. apply Hc3; [done.. |]. unfold filled. lia.
Qed.

End Refinement.

(** ** The table and the recursive distance *)

Section Distance.
Context {A : Type} `{EqDecision A}.
Implicit Types a b c : list A.

Lemma wagner_fischer_is_table (s1 s2 : list A) :
  is_wagner_fischer s1 s2 (wagner_fischer s1 s2).
Proof.
  split; [|split].
  - intros [|i] _; reflexivity.
  - intros j _. reflexivity.
  - intros i j x y Hx Hy. cbn [wagner_fischer]. unfold cost_at.
    rewrite Hx, Hy. reflexivity.
Qed.

Lemma distance_nil_r a : distance a [] = Z.of_nat (length a).
Proof. by destruct a. Qed.

Lemma distance_cons a b x y :
  distance (x :: a) (y :: b) =
    Z.min (distance a (y :: b) + 1)
      (Z.min (distance (x :: a) b + 1) (distance a b + cost x y)).
Proof. reflexivity. Qed.

Lemma cost_range (x y : A) : 0 ≤ cost x y ≤ 1.
Proof. unfold cost. case_decide; lia. Qed.

Lemma cost_sym (x y : A) : cost x y = cost y x.
Proof. unfold cost. repeat case_decide; congruence. Qed.

Lemma cost_refl (x : A) : cost x x = 0.
Proof. unfold cost. case_decide; congruence. Qed.

Lemma cost_triangle (x y z : A) : cost x z ≤ cost x y + cost y z.
Proof. unfold cost. repeat case_decide; try lia. congruence. Qed.

(** Every table that obeys the recurrence holds, in cell [(i, j)], the
    distance between the first [i] and the first [j] elements. *)
Lemma table_distance (s1 s2 : list A) (T : nat → nat → Z) :
  is_wagner_fischer s1 s2 T →
  ∀ i j, (i ≤ length s1)%nat → (j ≤ length s2)%nat →
    T i j = distance (reverse (take i s1)) (reverse (take j s2)).
Proof.
  intros (Hcol & Hrow & Hrec) i. induction i as [|i IHi]; intros j Hi Hj.
  - rewrite Hrow by done. rewrite take_0, reverse_nil. cbn [distance].
    rewrite length_reverse, length_take. lia.
  - induction j as [|j IHj].
    + rewrite Hcol by done. rewrite take_0, reverse_nil, distance_nil_r.
      rewrite length_reverse, length_take. lia.
    + destruct (lookup_lt_is_Some_2 s1 i) as [x Hx]; [lia |].
      destruct (lookup_lt_is_Some_2 s2 j) as [y Hy]; [lia |].
      rewrite (Hrec i j x y Hx Hy), IHj, !IHi by lia.
      rewrite !(take_S_r s1 i x Hx), !(take_S_r s2 j y Hy), !reverse_snoc.
      rewrite distance_cons, cost_decide. reflexivity.
Qed.

Lemma levenshtein_distance_distance (s1 s2 : list A) :
  levenshtein_distance s1 s2 = Ok (distance (reverse s1) (reverse s2)).
Proof.
  rewrite (levenshtein_distance_table s1 s2 _ (wagner_fischer_is_table s1 s2)).
  rewrite (table_distance s1 s2 _ (wagner_fischer_is_table s1 s2)) by done.
  by rewrite !firstn_all.
Qed.

Lemma distance_sym a b : distance a b = distance b a.
Proof.
  revert b. induction a as [|x a IHa]; intros b.
  - by rewrite distance_nil_r.
  - induction b as [|y b IHb]; [by rewrite distance_nil_r |].
    rewrite !distance_cons, IHb, !IHa, (cost_sym x y). lia.
Qed.

Lemma distance_bounds a b :
  Z.of_nat (length a) - Z.of_nat (length b) ≤ distance a b ∧
  Z.of_nat (length b) - Z.of_nat (length a) ≤ distance a b ∧
  distance a b ≤ Z.max (Z.of_nat (length a)) (Z.of_nat (length b)).
Proof.
  revert b. induction a as [|x a IHa]; intros b.
  - cbn. lia.
  - induction b as [|y b IHb]; [cbn; lia |].
    rewrite distance_cons.
    pose proof (IHa (y :: b)). pose proof (IHa b). pose proof (cost_range x y).
    cbn [length] in *. lia.
Qed.

Lemma distance_refl a : distance a a = 0.
Proof.
  induction a as [|x a IH]; [done |].
  rewrite distance_cons, IH, cost_refl.
  pose proof (distance_bounds a (x :: a)). pose proof (distance_bounds (x :: a) a).
  cbn [length] in *. lia.
Qed.

Lemma distance_del a b x : distance (x :: a) b ≤ distance a b + 1.
Proof.
  destruct b as [|y b]; [rewrite !distance_nil_r; cbn [length]; lia |].
  rewrite distance_cons. lia.
Qed.

Lemma distance_ins a b y : distance a (y :: b) ≤ distance a b + 1.
Proof. rewrite (distance_sym a), (distance_sym a). apply distance_del. Qed.

Lemma edit_distance a b : edit a b (distance a b).
Proof.
  assert (Hnil : ∀ b, edit [] b (Z.of_nat (length b))).
  { induction b0 as [|y b0 IH]; [constructor |].
    cbn [length]. rewrite Nat2Z.inj_succ, <- Z.add_1_r. by constructor. }
  revert b. induction a as [|x a IHa]; intros b; [apply Hnil |].
  induction b as [|y b IHb].
  - rewrite distance_nil_r. cbn [length]. rewrite Nat2Z.inj_succ, <- Z.add_1_r.
    constructor. rewrite <- distance_nil_r. apply IHa.
  - rewrite distance_cons.
    destruct (Z.min_spec (distance (x :: a) b + 1) (distance a b + cost x y)) as [[_ ->]|[_ ->]];
    match goal with
    | |- edit _ _ (Z.min ?p ?q) => destruct (Z.min_spec p q) as [[_ ->]|[_ ->]]
    end; by constructor.
Qed.

Lemma distance_le_edit a b n : edit a b n → distance a b ≤ n.
Proof.
  induction 1 as [|x a b n _ IH|y a b n _ IH|x y a b n _ IH].
  - done.
  - pose proof (distance_del a b x). lia.
  - pose proof (distance_ins a b y). lia.
  - rewrite distance_cons. lia.
Qed.

Lemma edit_nonneg a b n : edit a b n → 0 ≤ n.
Proof. induction 1 as [| | |x y ? ? ? _ ?]; try lia. pose proof (cost_range x y). lia. Qed.

(** Two scripts compose into one that costs no more than their sum. *)
Lemma edit_trans a b c n k :
  edit a b n → edit b c k → ∃ r, r ≤ n + k ∧ edit a c r.
Proof.
  intros H1. revert c k.
  induction H1 as [|x a b n H1 IH|y a b n H1 IH|x y a b n H1 IH]; intros c k H2.
  - exists k. split; [lia | done].
  - destruct (IH c k H2) as (r & Hr & He). exists (r + 1). split; [lia | by constructor].
  - remember (y :: b) as yb eqn:E. revert E.
    induction H2 as [|x' a2 b2 n2 H2 _|y' a2 b2 n2 H2 IH2|x' y' a2 b2 n2 H2 _]; intros E.
    + done.
    + injection E as -> ->. destruct (IH b2 n2 H2) as (r & Hr & He).
      exists r. split; [lia | done].
    + destruct (IH2 E) as (r & Hr & He). exists (r + 1). split; [lia | by constructor].
    + injection E as -> ->. destruct (IH b2 n2 H2) as (r & Hr & He).
      exists (r + 1). pose proof (cost_range y y'). split; [lia | by constructor].
  - remember (y :: b) as yb eqn:E. revert E.
    induction H2 as [|x' a2 b2 n2 H2 _|y' a2 b2 n2 H2 IH2|x' y' a2 b2 n2 H2 _]; intros E.
    + done.
    + injection E as -> ->. destruct (IH b2 n2 H2) as (r & Hr & He).
      exists (r + 1). pose proof (cost_range x y). split; [lia | by constructor].
    + destruct (IH2 E) as (r & Hr & He). exists (r + 1). split; [lia | by constructor].
    + injection E as -> ->. destruct (IH b2 n2 H2) as (r & Hr & He).
      exists (r + cost x y'). pose proof (cost_triangle x y y').
      split; [lia | by constructor].
Qed.

Lemma distance_triangle a b c : distance a c ≤ distance a b + distance b c.
Proof.
  destruct (edit_trans a b c _ _ (edit_distance a b) (edit_distance b c)) as (r & Hr & He).
  pose proof (distance_le_edit a c r He). lia.
Qed.

End Distance.

(** ** Punctuation *)

Lemma string_punctuation_ranges : string_punctuation = ascii_punctuation_set.
Proof. reflexivity. Qed.

Lemma arabic_punctuation_literal : arabic_punctuation = arabic_punctuation_set.
Proof. reflexivity. Qed.

Lemma ascii_punctuation_count :
  length ascii_punctuation_set = 32%nat ∧ NoDup ascii_punctuation_set ∧
  Forall (λ c, is_ascii c = true) ascii_punctuation_set.
Proof.
  split; [reflexivity |]. split.
  - compute_done.
  - compute_done.
Qed.

Lemma maketrans_lookup (z : unicode) (c : Z) :
  maketrans z !! c = if decide (c ∈ z) then Some None else None.
Proof.
  unfold maketrans. induction z as [|d z IH].
  - rewrite fmap_nil, list_to_map_nil, lookup_empty.
    by rewrite decide_False by set_solver.
  - rewrite fmap_cons, list_to_map_cons, lookup_insert, IH. clear IH.
    destruct (decide (c ∈ z)) as [Hz|Hz], (decide (c ∈ d :: z)) as [Hdz|Hdz],
      (decide (d = c)) as [Hdc|Hdc]; try done; exfalso;
      apply elem_of_cons in Hdz || (apply Hdz, elem_of_cons); intuition congruence.
Qed.

Lemma translate_delete (z s : unicode) :
  translate (maketrans z) s = filter (λ c, c ∉ z) s.
Proof.
  unfold translate. induction s as [|c s IH]; [done |].
  cbn [mbind list_bind]. rewrite IH, maketrans_lookup, filter_cons.
  repeat case_decide; done.
Qed.

(** ** Whitespace *)

Section Whitespace.
Context `{UnicodeData}.
Implicit Types s t : unicode.

Lemma skip_run_length s : (length (skip_run s) ≤ length s)%nat.
Proof.
  induction s as [|c s IH]; [done |]. cbn [skip_run length].
  destruct (isspace c); cbn [length]; lia.
Qed.

Lemma sub_spaces_in_run s : sub_spaces true s = sub_spaces false (skip_run s).
Proof.
  induction s as [|c s IH]; [done |]. cbn [skip_run sub_spaces].
  destruct (isspace c) eqn:Hc; [done |]. cbn [sub_spaces]. by rewrite Hc.
Qed.

(** The scan of [re.sub] replaces exactly the maximal runs. *)
Lemma sub_spaces_collapse_runs (fuel : nat) s :
  (length s ≤ fuel)%nat → sub_spaces false s = collapse_runs fuel s.
Proof.
  revert s. induction fuel as [|fuel IH]; intros [|c s] Hlen; cbn [length] in Hlen;
    try done; [lia |].
  cbn [sub_spaces collapse_runs]. destruct (isspace c).
  - rewrite sub_spaces_in_run, IH; [done |]. pose proof (skip_run_length s). lia.
  - rewrite IH; [done | lia].
Qed.

Lemma lstrip_spec s :
  ∃ l, s = l ++ lstrip s ∧ Forall (λ c, isspace c = true) l ∧
       match lstrip s with [] => True | c :: _ => isspace c = false end.
Proof.
  induction s as [|c s (l & Hl & Hsp & Hhd)]; [by exists [] |].
  cbn [lstrip]. destruct (isspace c) eqn:Hc.
  - exists (c :: l). split; [by rewrite Hl at 1 |]. split; [by constructor | done].
  - by exists [].
Qed.

Lemma lstrip_nonspace c s : isspace c = false → lstrip (c :: s) = c :: s.
Proof. intros Hc. cbn [lstrip]. by rewrite Hc. Qed.

(** [s.strip()] is [s] without its leading and trailing whitespace. *)
Lemma strip_is_trim s : is_trim_of s (strip s).
Proof.
  unfold strip, rstrip.
  destruct (lstrip_spec s) as (l & Hl & Hlsp & Hhd).
  destruct (lstrip_spec (reverse (lstrip s))) as (r & Hr & Hrsp & Hlast).
  set (u := lstrip (reverse (lstrip s))) in *.
  assert (Hmid : lstrip s = reverse u ++ reverse r).
  { rewrite <- reverse_app, <- Hr. by rewrite reverse_involutive. }
  split.
  - destruct u as [|d u'] eqn:Hu; [by left |]. right.
    destruct (lstrip s) as [|c s'] eqn:Hs.
    + rewrite reverse_nil in Hr. by destruct r.
    + destruct (reverse (d :: u')) as [|c' w] eqn:Hw.
      { apply (f_equal reverse) in Hw. rewrite reverse_involutive in Hw. done. }
      exists c', d. split; [done |]. split.
      * rewrite <- Hw, reverse_cons. apply last_snoc.
      * split; [|done]. cbn in Hmid. by injection Hmid as -> _.
  - exists l, (reverse r). split; [by rewrite <- Hmid |]. split; [done |].
    by apply Forall_reverse.
Qed.

Lemma strip_trimmed s : trimmed (strip s).
Proof. apply strip_is_trim. Qed.

Lemma strip_nil : strip [] = [].
Proof. reflexivity. Qed.

End Whitespace.

(** ** ASCII text: every database gives the same result *)

Section Ascii.
Context (D1 D2 : UnicodeData).
Implicit Types s : unicode.

Lemma sub_spaces_same s b :
  same_classes D1 D2 s → @sub_spaces D1 b s = @sub_spaces D2 b s.
Proof.
  intros Hs. revert b. induction Hs as [|c s [Hc _] _ IH]; intros b; [done |].
  cbn [sub_spaces]. rewrite Hc, !IH. done.
Qed.

Lemma lstrip_same s : same_classes D1 D2 s → @lstrip D1 s = @lstrip D2 s.
Proof.
  induction 1 as [|c s [Hc _] _ IH]; [done |]. cbn [lstrip]. by rewrite Hc, IH.
Qed.

Lemma strip_same s : same_classes D1 D2 s → @strip D1 s = @strip D2 s.
Proof.
  intros Hs. unfold strip, rstrip. rewrite (lstrip_same s Hs).
  rewrite lstrip_same; [done |]. apply Forall_reverse.
  destruct (@lstrip_spec D2 s) as (l & Hl & _). rewrite Hl in Hs.
  by apply Forall_app in Hs as [_ ?].
Qed.

Lemma sub_digits_same s : same_classes D1 D2 s → @sub_digits D1 s = @sub_digits D2 s.
Proof.
  unfold sub_digits. induction 1 as [|c s [_ Hc] _ IH]; [done |].
  rewrite !filter_cons, IH, Hc. done.
Qed.

End Ascii.

Section AsciiText.
Context `{D : UnicodeData}.
Implicit Types s : unicode.

Lemma ascii_text_forallb s : ascii_text s → forallb is_ascii s = true.
Proof. induction 1 as [|c s Hc _ IH]; [done |]. cbn. by rewrite Hc, IH. Qed.

Lemma sub_spaces_ascii s b : ascii_text s → ascii_text (sub_spaces b s).
Proof.
  intros Hs. revert b. induction Hs as [|c s Hc _ IH]; intros b; [constructor |].
  cbn [sub_spaces]. destruct (isspace c), b; try apply IH; constructor; try done; apply IH.
Qed.

Lemma lstrip_ascii s : ascii_text s → ascii_text (lstrip s).
Proof.
  intros Hs. destruct (lstrip_spec s) as (l & Hl & _). unfold ascii_text in Hs.
  rewrite Hl in Hs. by apply Forall_app in Hs as [_ ?].
Qed.

Lemma strip_ascii s : ascii_text s → ascii_text (strip s).
Proof.
  intros Hs. unfold strip, rstrip. apply Forall_reverse, lstrip_ascii.
  by apply Forall_reverse, lstrip_ascii.
Qed.

Lemma filter_ascii (P : Z → Prop) `{∀ c, Decision (P c)} s :
  ascii_text s → ascii_text (filter P s).
Proof.
  induction 1 as [|c s Hc _ IH]; [constructor |]. rewrite filter_cons.
  case_decide; [by constructor | done].
Qed.

End AsciiText.

Section AsciiAgreement.
Context `{D : UnicodeData}.
Implicit Types s : unicode.

Lemma ascii_same_classes s : ascii_text s → same_classes D ascii_data s.
Proof.
  intros Hs. eapply Forall_impl; [exact Hs |]. intros c Hc. split.
  - by apply isspace_ascii.
  - by apply isdecimal_ascii.
Qed.

(** On ASCII text the result does not depend on the database. *)
Lemma normalize_text_ascii s (p n : bool) :
  ascii_text s →
  normalize_text (VStr s) p n = @normalize_text ascii_data (VStr s) p n.
Proof.
  intros Hs. unfold normalize_text. cbn [mbind result_bind].
  rewrite (nfc_ascii s (ascii_text_forallb s Hs)).
  change (@nfc ascii_data s) with s.
  set (t := if p then _ else s).
  assert (Ht : ascii_text t).
  { subst t. destruct p; [|done]. rewrite translate_delete. by apply filter_ascii. }
  rewrite (sub_spaces_same D ascii_data t false (ascii_same_classes t Ht)).
  pose proof (@sub_spaces_ascii ascii_data t false Ht) as Hu.
  rewrite (strip_same D ascii_data _ (ascii_same_classes _ Hu)).
  destruct n; [|done].
  pose proof (@strip_ascii ascii_data _ Hu) as Hv.
  rewrite (sub_digits_same D ascii_data _ (ascii_same_classes _ Hv)).
  rewrite (strip_same D ascii_data); [done |]. apply ascii_same_classes.
  unfold sub_digits. by apply filter_ascii.
Qed.

End AsciiAgreement.

(** ** The edit distance: table, symmetry, triangle inequality, bounds *)

Section LevenshteinClaims.
Context {A : Type} `{EqDecision A}.
Implicit Types a b c : list A.

(** C3: [levenshtein_distance] returns the entry [T |s1| |s2|] of every
    table [T] that has the base row [T 0 j = j], the base column
    [T i 0 = i] and the recurrence of Wagner and Fischer with cost 0 for
    equal elements and 1 otherwise; such a table exists, and the entry is
    not negative. *)
Theorem levenshtein_distance_wagner_fischer (s1 s2 : list A) :
  is_wagner_fischer s1 s2 (wagner_fischer s1 s2) ∧
  ∀ T, is_wagner_fischer s1 s2 T →
    levenshtein_distance s1 s2 = Ok (T (length s1) (length s2)) ∧
    0 ≤ T (length s1) (length s2).
Proof.
  split; [apply wagner_fischer_is_table |]. intros T HT. split.
  - by apply levenshtein_distance_table.
  - rewrite (table_distance s1 s2 T HT) by done.
    match goal with |- 0 ≤ distance ?x ?y => pose proof (distance_bounds x y) end.
    lia.
Qed.

(** C6: the distance from [a] to [b] is the distance from [b] to [a]. *)
Theorem levenshtein_distance_symmetric a b :
  levenshtein_distance a b = levenshtein_distance b a.
Proof. by rewrite !levenshtein_distance_distance, distance_sym. Qed.

(** C7: the three calls return, and the distance from [a] to [c] is at
    most the distance from [a] to [b] plus the distance from [b] to [c]. *)
Theorem levenshtein_distance_triangle a b c :
  ∃ dac dab dbc,
    levenshtein_distance a c = Ok dac ∧
    levenshtein_distance a b = Ok dab ∧
    levenshtein_distance b c = Ok dbc ∧
    dac ≤ dab + dbc.
Proof.
  eexists _, _, _. rewrite !levenshtein_distance_distance.
  split; [done |]. split; [done |]. split; [done |]. apply distance_triangle.
Qed.

Lemma levenshtein_distance_bounds (s1 s2 : list A) :
  ∃ d, levenshtein_distance s1 s2 = Ok d ∧
       Z.abs (Z.of_nat (length s1) - Z.of_nat (length s2)) ≤ d ∧
       d ≤ Z.max (Z.of_nat (length s1)) (Z.of_nat (length s2)).
Proof.
  eexists. rewrite levenshtein_distance_distance. split; [done |].
  pose proof (distance_bounds (reverse s1) (reverse s2)) as Hb.
  rewrite !length_reverse in Hb. lia.
Qed.

Lemma levenshtein_distance_nil_r (s1 : list A) :
  levenshtein_distance s1 [] = Ok (Z.of_nat (length s1)).
Proof.
  destruct (levenshtein_distance_bounds s1 []) as (d & -> & Hlo & Hhi).
  cbn [length] in *. f_equal. lia.
Qed.

End LevenshteinClaims.

Lemma levenshtein_distance_wagner_fischer_witness :
  levenshtein_distance (str "kitten") (str "sitting") = Ok 3.
Proof.
  destruct (levenshtein_distance_wagner_fischer (str "kitten") (str "sitting"))
    as [Htable Hrun].
  destruct (Hrun _ Htable) as [Hd _]. rewrite Hd. vm_compute. reflexivity.
Defined.

(** ** The normalizer *)

Section NormalizerClaims.
Context `{UnicodeData}.
Implicit Types s t : unicode.

Lemma normalize_text_str t (p n : bool) :
  normalize_text (VStr t) p n = Ok (normalized p n t).
Proof.
  unfold normalize_text, normalized, strip_punctuation, strip_digits, sub_digits.
  cbn [mbind result_bind]. rewrite translate_delete.
  change (string_punctuation ++ arabic_punctuation)
    with (ascii_punctuation_set ++ arabic_punctuation_set).
  destruct p; cbv zeta; by rewrite <- sub_spaces_collapse_runs.
Qed.

Lemma normalized_trimmed t (p n : bool) : trimmed (normalized p n t).
Proof. unfold normalized, strip_digits. destruct n; apply strip_trimmed. Qed.

Lemma ascii_text_str_hello : ascii_text (str "Hello, World! 123").
Proof. compute_done. Qed.

(** C4: on a string, [normalize_text] is the composition, in this order,
    of canonical composition, the removal of the 32 ASCII and the 6 Arabic
    punctuation characters when enabled, the collapse of every maximal
    run of whitespace into one U+0020 followed by trimming, and the
    removal of the decimal digits followed by trimming when enabled; and
    ["Hello, World! 123"] becomes ["Hello World"]. *)
Theorem normalize_text_pipeline t (p n : bool) :
  normalize_text (VStr t) p n =
    Ok (strip_digits n
          (strip (collapse_runs (length (strip_punctuation p (nfc t)))
                    (strip_punctuation p (nfc t))))) ∧
  (∀ s, is_trim_of s (strip s)) ∧
  length ascii_punctuation_set = 32%nat ∧
  NoDup (ascii_punctuation_set ++ arabic_punctuation_set) ∧
  normalize_text (VStr (str "Hello, World! 123")) true true = Ok (str "Hello World").
Proof.
  split; [apply normalize_text_str |]. split; [apply strip_is_trim |].
  split; [reflexivity |]. split; [compute_done |].
  rewrite (normalize_text_ascii _ _ _ ascii_text_str_hello). vm_compute. reflexivity.
Qed.

(** C9: [normalize_text] raises exactly when its argument is [None] or
    an object whose conversion to [str] raises, and then it raises
    [TypeError]; on every string it returns, whatever the flags, and the
    empty string gives the empty string. *)
Theorem normalize_text_type_error (v : value) (p n : bool) :
  (∀ e, normalize_text v p n = Raise e ↔
        e = TypeError ∧ (v = VNone ∨ v = VObj None)) ∧
  (∀ t, ∃ r, normalize_text (VStr t) p n = Ok r) ∧
  normalize_text (VStr []) p n = Ok [].
Proof.
  split; [|split].
  - intros e. destruct v as [|t|[t|]].
    + cbn. split; [intros [= <-]; auto | intros [-> _]; done].
    + rewrite normalize_text_str. split; [done | intros [_ [?|?]]; done].
    + change (normalize_text (VObj (Some t)) p n) with (normalize_text (VStr t) p n).
      rewrite normalize_text_str. split; [done | intros [_ [?|?]]; done].
    + cbn. split; [intros [= <-]; auto | intros [-> _]; done].
  - intros t. eexists. apply normalize_text_str.
  - rewrite normalize_text_str. unfold normalized.
    rewrite (nfc_ascii [] eq_refl). by destruct p, n.
Qed.

(** C10: the string that [normalize_text] returns is empty or starts and
    ends with a character that is not whitespace. *)
Theorem normalize_text_trimmed t (p n : bool) :
  ∃ r, normalize_text (VStr t) p n = Ok r ∧
       (r = [] ∨
        ∃ c d, head r = Some c ∧ last r = Some d ∧
               isspace c = false ∧ isspace d = false).
Proof.
  exists (normalized p n t). split; [apply normalize_text_str |].
  apply normalized_trimmed.
Qed.

Lemma ascii_text_a1b : ascii_text (str "a 1 b").
Proof. compute_done. Qed.

Lemma ascii_text_a_b : ascii_text (str "a  b").
Proof. compute_done. Qed.

Lemma ascii_text_hello_123 : ascii_text (str "Hello 123 World").
Proof. compute_done. Qed.

(** C5: with the default flags ["a 1 b"] is normalized to ["a  b"], with
    two spaces, and ["a  b"] is normalized to ["a b"]: a second pass
    changes the result of the first.  In the same way ["Hello 123 World"]
    gives ["Hello  World"]. *)
Theorem normalize_text_second_pass :
  normalize_text (VStr (str "a 1 b")) true true = Ok (str "a  b") ∧
  normalize_text (VStr (str "a  b")) true true = Ok (str "a b") ∧
  normalize_text (VStr (str "Hello 123 World")) true true = Ok (str "Hello  World") ∧
  str "a  b" ≠ str "a b".
Proof.
  rewrite (normalize_text_ascii _ _ _ ascii_text_a1b).
  rewrite (normalize_text_ascii _ _ _ ascii_text_a_b).
  rewrite (normalize_text_ascii _ _ _ ascii_text_hello_123).
  vm_compute. done.
Qed.

End NormalizerClaims.

(** ** The metrics *)

Section MetricClaims.
Context `{UnicodeData}.
Implicit Types reference hypothesis : unicode.

Lemma cer_prepared reference hypothesis (normalize p n : bool) :
  cer reference hypothesis normalize p n =
    let r := prepared normalize p n reference in
    let h := prepared normalize p n hypothesis in
    if decide (length r = 0%nat)
    then if decide (length h = 0%nat) then Ok 0%Q else Raise ValueError
    else dist ← levenshtein_distance r h; Ok (true_div dist (Z.of_nat (length r))).
Proof.
  unfold cer, prepared. destruct normalize; [|done].
  by rewrite !normalize_text_str.
Qed.

Lemma wer_prepared reference hypothesis (normalize p n : bool) :
  wer reference hypothesis normalize p n =
    let r := split (prepared normalize p n reference) in
    let h := split (prepared normalize p n hypothesis) in
    if decide (length r = 0%nat)
    then if decide (length h = 0%nat) then Ok 0%Q else Raise ValueError
    else dist ← levenshtein_distance r h; Ok (true_div dist (Z.of_nat (length r))).
Proof.
  unfold wer, prepared. destruct normalize; [|done].
  by rewrite !normalize_text_str.
Qed.

Lemma prepared_normalize_text s (normalize p n : bool) :
  (normalize = true → normalize_text (VStr s) p n = Ok (prepared normalize p n s)) ∧
  (normalize = false → prepared normalize p n s = s).
Proof. split; intros ->; [apply normalize_text_str | done]. Qed.

Lemma true_div_same (k : Z) : k ≠ 0 → (true_div k k == 1)%Q.
Proof.
  intros Hk. unfold true_div, Qdiv. apply Qmult_inv_r.
  intros Heq. apply Hk. unfold Qeq in Heq. cbn in Heq. lia.
Qed.

(** C1: when the reference has a token, [cer] is the edit distance of
    the two character sequences over the number of reference characters
    and [wer] is the edit distance of the two word sequences over the
    number of reference words, as the exact quotient; the strings that
    are tokenized are the results of [normalize_text] with the given
    flags when [normalize] is set and the arguments themselves
    otherwise. *)
Theorem cer_wer_ratio reference hypothesis (normalize p n : bool) :
  let r := prepared normalize p n reference in
  let h := prepared normalize p n hypothesis in
  (normalize = true →
     normalize_text (VStr reference) p n = Ok r ∧
     normalize_text (VStr hypothesis) p n = Ok h) ∧
  (normalize = false → r = reference ∧ h = hypothesis) ∧
  (r ≠ [] →
     ∃ d, levenshtein_distance r h = Ok d ∧
          cer reference hypothesis normalize p n =
            Ok (inject_Z d / inject_Z (Z.of_nat (length r)))%Q) ∧
  (split r ≠ [] →
     ∃ d, levenshtein_distance (split r) (split h) = Ok d ∧
          wer reference hypothesis normalize p n =
            Ok (inject_Z d / inject_Z (Z.of_nat (length (split r))))%Q).
Proof.
  intros r h. split; [|split; [|split]].
  - intros Hn. split; by apply prepared_normalize_text.
  - intros Hn. split; by apply prepared_normalize_text.
  - intros Hr. destruct (levenshtein_distance_bounds r h) as (d & Hd & _).
    exists d. split; [done |]. rewrite cer_prepared. cbv zeta. fold r h.
    rewrite decide_False by (by destruct r). by rewrite Hd.
  - intros Hr.
    destruct (levenshtein_distance_bounds (split r) (split h)) as (d & Hd & _).
    exists d. split; [done |]. rewrite wer_prepared. cbv zeta. fold r h.
    rewrite decide_False by (by destruct (split r)). by rewrite Hd.
Qed.

(** C2: when the reference has no token, [cer] and [wer] return 0 if the
    hypothesis has no token either, and raise [ValueError] if it has
    one. *)
Theorem empty_reference reference hypothesis (normalize p n : bool) :
  let r := prepared normalize p n reference in
  let h := prepared normalize p n hypothesis in
  (r = [] → h = [] → cer reference hypothesis normalize p n = Ok 0%Q) ∧
  (r = [] → h ≠ [] → cer reference hypothesis normalize p n = Raise ValueError) ∧
  (split r = [] → split h = [] →
     wer reference hypothesis normalize p n = Ok 0%Q) ∧
  (split r = [] → split h ≠ [] →
     wer reference hypothesis normalize p n = Raise ValueError).
Proof.
  intros r h. rewrite cer_prepared, wer_prepared. cbv zeta. fold r h.
  clearbody r h.
  split; [|split; [|split]].
  - by intros -> ->.
  - intros -> Hh. rewrite decide_True by done.
    rewrite decide_False; [done | by destruct h].
  - by intros Hr Hh; rewrite Hr, Hh.
  - intros Hr Hh. rewrite Hr, decide_True by done.
    rewrite decide_False; [done | by destruct (split h)].
Qed.

(** C8: the edit distance lies between the difference and the maximum of
    the two lengths; so, when the reference has a token and the
    hypothesis has none, [cer] and [wer] return a quotient equal to 1. *)
Theorem distance_bounds_and_empty_hypothesis
    reference hypothesis (normalize p n : bool) :
  let r := prepared normalize p n reference in
  let h := prepared normalize p n hypothesis in
  (∀ (A : Type) (eq_dec : EqDecision A) (s1 s2 : list A),
     ∃ d, levenshtein_distance s1 s2 = Ok d ∧
          Z.abs (Z.of_nat (length s1) - Z.of_nat (length s2)) ≤ d ∧
          d ≤ Z.max (Z.of_nat (length s1)) (Z.of_nat (length s2))) ∧
  (r ≠ [] → h = [] →
     ∃ q, cer reference hypothesis normalize p n = Ok q ∧ (q == 1)%Q) ∧
  (split r ≠ [] → split h = [] →
     ∃ q, wer reference hypothesis normalize p n = Ok q ∧ (q == 1)%Q).
Proof.
  intros r h. split; [|split].
  - intros A eq_dec s1 s2. apply levenshtein_distance_bounds.
  - intros Hr Hh. rewrite cer_prepared. cbv zeta. fold r h. clearbody r h.
    rewrite Hh.
    rewrite decide_False by (by destruct r).
    rewrite levenshtein_distance_nil_r. eexists. split; [done |].
    apply true_div_same. destruct r; [done | cbn [length]; lia].
  - intros Hr Hh. rewrite wer_prepared. cbv zeta. fold r h. clearbody r h.
    rewrite Hh.
    rewrite decide_False by (by destruct (split r)).
    rewrite levenshtein_distance_nil_r. eexists. split; [done |].
    apply true_div_same. destruct (split r); [done | cbn [length]; lia].
Qed.

End MetricClaims.

(** ** The claims at concrete inputs *)

Lemma cer_wer_ratio_witness :
  @cer ascii_data (str "hello") (str "hallo") true true true = Ok (1 # 5)%Q ∧
  @wer ascii_data (str "hello world") (str "hello") true true true = Ok (1 # 2)%Q.
Proof.
  split.
  - destruct (@cer_wer_ratio ascii_data (str "hello") (str "hallo") true true true)
      as (_ & _ & Hcer & _).
    destruct Hcer as (d & Hd & ->); [vm_compute; discriminate |].
    vm_compute in Hd. injection Hd as <-. vm_compute. reflexivity.
  - destruct (@cer_wer_ratio ascii_data (str "hello world") (str "hello") true true true)
      as (_ & _ & _ & Hwer).
    destruct Hwer as (d & Hd & ->); [vm_compute; discriminate |].
    vm_compute in Hd. injection Hd as <-. vm_compute. reflexivity.
Defined.

Lemma empty_reference_witness :
  @cer ascii_data (str "123") (str "456") true true true = Ok 0%Q ∧
  @cer ascii_data (str "") (str "hello") true true true = Raise ValueError ∧
  @wer ascii_data (str " ") (str "") false true true = Ok 0%Q ∧
  @wer ascii_data (str "") (str "hello world") true true true = Raise ValueError.
Proof.
  split; [|split; [|split]].
  - apply (@empty_reference ascii_data (str "123") (str "456") true true true);
      vm_compute; reflexivity.
  - apply (@empty_reference ascii_data (str "") (str "hello") true true true);
      vm_compute; [reflexivity | discriminate].
  - apply (@empty_reference ascii_data (str " ") (str "") false true true);
      vm_compute; reflexivity.
  - apply (@empty_reference ascii_data (str "") (str "hello world") true true true);
      vm_compute; [reflexivity | discriminate].
Defined.

Lemma distance_bounds_and_empty_hypothesis_witness :
  (∃ q, @cer ascii_data (str "hello") (str "") true true true = Ok q ∧ (q == 1)%Q) ∧
  (∃ q, @wer ascii_data (str "hello world") (str "!?") true true true = Ok q ∧
        (q == 1)%Q).
Proof.
  split.
  - apply (@distance_bounds_and_empty_hypothesis ascii_data
             (str "hello") (str "") true true true);
      vm_compute; [discriminate | reflexivity].
  - apply (@distance_bounds_and_empty_hypothesis ascii_data
             (str "hello world") (str "!?") true true true);
      vm_compute; [discriminate | reflexivity].
Defined.

(** ** More on the edit distance *)

Section DistanceMore.
Context {A : Type} `{EqDecision A}.
Implicit Types a b c s : list A.

Lemma distance_nonneg a b : 0 ≤ distance a b.
Proof. pose proof (distance_bounds a b). lia. Qed.

Lemma distance_zero a b : distance a b = 0 → a = b.
Proof.
  revert b. induction a as [|x a IHa]; intros b.
  - destruct b; [done |]. cbn [distance length]. lia.
  - induction b as [|y b _]; [rewrite distance_nil_r; cbn [length]; lia |].
    rewrite distance_cons. intros Hd.
    pose proof (distance_nonneg a (y :: b)). pose proof (distance_nonneg (x :: a) b).
    pose proof (distance_nonneg a b). pose proof (cost_range x y).
    assert (Hab : distance a b = 0) by lia. assert (Hc : cost x y = 0) by lia.
    rewrite (IHa b Hab). f_equal. unfold cost in Hc.
    destruct (decide (x ≠ y)) as [|Hxy]; [lia |]. by destruct (decide (x = y)).
Qed.

Lemma edit_app a b a' b' n n' :
  edit a b n → edit a' b' n' → edit (a ++ a') (b ++ b') (n + n').
Proof.
  intros H1 H2. induction H1 as [|x a b n _ IH|y a b n _ IH|x y a b n _ IH]; cbn [app].
  - by rewrite Z.add_0_l.
  - replace (n + 1 + n') with (n + n' + 1) by lia. by constructor.
  - replace (n + 1 + n') with (n + n' + 1) by lia. by constructor.
  - replace (n + cost x y + n') with (n + n' + cost x y) by lia. by constructor.
Qed.

Lemma edit_reverse a b n : edit a b n → edit (reverse a) (reverse b) n.
Proof.
  induction 1 as [|x a b n _ IH|y a b n _ IH|x y a b n _ IH].
  - constructor.
  - rewrite reverse_cons, <- (app_nil_r (reverse b)). apply edit_app; [done |].
    apply (edit_del x [] [] 0), edit_nil.
  - rewrite reverse_cons, <- (app_nil_r (reverse a)). apply edit_app; [done |].
    apply (edit_ins y [] [] 0), edit_nil.
  - rewrite !reverse_cons. apply edit_app; [done |].
    rewrite <- (Z.add_0_l (cost x y)). apply edit_sub, edit_nil.
Qed.

Lemma distance_reverse a b : distance (reverse a) (reverse b) = distance a b.
Proof.
  apply Z.le_antisymm.
  - apply distance_le_edit, edit_reverse, edit_distance.
  - rewrite <- (reverse_involutive a), <- (reverse_involutive b) at 1.
    apply distance_le_edit, edit_reverse, edit_distance.
Qed.

Lemma levenshtein_distance_eq a b : levenshtein_distance a b = Ok (distance a b).
Proof. by rewrite levenshtein_distance_distance, distance_reverse. Qed.

Lemma distance_cons_same a b x : distance (x :: a) (x :: b) = distance a b.
Proof.
  rewrite distance_cons, cost_refl.
  pose proof (distance_triangle a (x :: b) b). pose proof (distance_del b b x).
  pose proof (distance_triangle a (x :: a) b). pose proof (distance_ins a a x).
  rewrite (distance_refl b) in *. rewrite (distance_refl a) in *. lia.
Qed.

Lemma distance_app_same_l s a b : distance (s ++ a) (s ++ b) = distance a b.
Proof. induction s as [|x s IH]; [done |]. cbn [app]. by rewrite distance_cons_same. Qed.

Lemma distance_app_same_r s a b : distance (a ++ s) (b ++ s) = distance a b.
Proof.
  rewrite <- distance_reverse, !reverse_app, distance_app_same_l.
  apply distance_reverse.
Qed.

End DistanceMore.

Section LevenshteinExtras.
Context {A : Type} `{EqDecision A}.
Implicit Types a b c p s : list A.

(** X1: the distance is 0 exactly between equal sequences. *)
Theorem levenshtein_distance_zero_iff a b :
  levenshtein_distance a b = Ok 0 ↔ a = b.
Proof.
  rewrite levenshtein_distance_eq. split.
  - intros [= Hd]. by apply distance_zero.
  - intros ->. by rewrite distance_refl.
Qed.

(** X2: a common prefix and a common suffix do not count: the distance
    of [p ++ a ++ s] and [p ++ b ++ s] is the distance of [a] and [b]. *)
Theorem levenshtein_distance_common_affixes p s a b :
  levenshtein_distance (p ++ a ++ s) (p ++ b ++ s) = levenshtein_distance a b.
Proof.
  by rewrite !levenshtein_distance_eq, distance_app_same_l, distance_app_same_r.
Qed.

(** X3: reading both sequences backwards does not change the distance. *)
Theorem levenshtein_distance_reverse a b :
  levenshtein_distance (reverse a) (reverse b) = levenshtein_distance a b.
Proof. by rewrite !levenshtein_distance_eq, distance_reverse. Qed.

(** X4: one more element anywhere in the second sequence moves the
    distance by at most 1, up or down. *)
Theorem levenshtein_distance_insert_one a b c (x : A) :
  ∃ d d',
    levenshtein_distance a (b ++ c) = Ok d ∧
    levenshtein_distance a (b ++ x :: c) = Ok d' ∧
    d - 1 ≤ d' ≤ d + 1.
Proof.
  eexists _, _. rewrite !levenshtein_distance_eq.
  split; [done |]. split; [done |].
  assert (Hone : distance (b ++ c) (b ++ x :: c) ≤ 1).
  { rewrite distance_app_same_l. pose proof (distance_ins c c x) as Hi.
    by rewrite distance_refl in Hi. }
  pose proof (distance_triangle a (b ++ c) (b ++ x :: c)).
  pose proof (distance_triangle a (b ++ x :: c) (b ++ c)).
  rewrite (distance_sym (b ++ x :: c) (b ++ c)) in *. lia.
Qed.

End LevenshteinExtras.

(** ** More on the metrics *)

Lemma true_div_zero (k : Z) : (true_div 0 k == 0)%Q.
Proof. unfold true_div, Qdiv. by rewrite Qmult_0_l. Qed.

Lemma true_div_nonneg (d k : Z) : 0 ≤ d → 0 < k → (0 <= true_div d k)%Q.
Proof.
  intros Hd Hk. unfold true_div. apply Qle_shift_div_l.
  - replace 0%Q with (inject_Z 0) by done. by rewrite <- Zlt_Qlt.
  - rewrite Qmult_0_l. replace 0%Q with (inject_Z 0) by done. by rewrite <- Zle_Qle.
Qed.

Lemma true_div_le_1 (d k : Z) : 0 < k → d ≤ k → (true_div d k <= 1)%Q.
Proof.
  intros Hk Hd. unfold true_div. apply Qle_shift_div_r.
  - replace 0%Q with (inject_Z 0) by done. by rewrite <- Zlt_Qlt.
  - rewrite Qmult_1_l. by rewrite <- Zle_Qle.
Qed.

Lemma true_div_gt_1 (d k : Z) : 0 < k → k < d → (1 < true_div d k)%Q.
Proof.
  intros Hk Hd. unfold true_div. apply Qlt_shift_div_l.
  - replace 0%Q with (inject_Z 0) by done. by rewrite <- Zlt_Qlt.
  - rewrite Qmult_1_l. by rewrite <- Zlt_Qlt.
Qed.

Section MetricExtras.
Context `{UnicodeData}.
Implicit Types reference hypothesis : unicode.

(** The metric on two token sequences, as [cer] and [wer] compute it
    after tokenizing. *)
Lemma metric_cases {T : Type} `{EqDecision T} (r h : list T) :
  (if decide (length r = 0%nat)
   then if decide (length h = 0%nat) then Ok 0%Q else Raise ValueError
   else dist ← levenshtein_distance r h; Ok (true_div dist (Z.of_nat (length r)))) =
  match r, h with
  | [], [] => Ok 0%Q
  | [], _ :: _ => Raise ValueError
  | _ :: _, _ => Ok (true_div (distance r h) (Z.of_nat (length r)))
  end.
Proof.
  destruct r as [|x r], h as [|y h]; try done;
    rewrite decide_False by done; by rewrite levenshtein_distance_eq.
Qed.

(** X5: a text compared with itself scores 0, for [cer] and for [wer],
    whatever the flags: the call never raises, also when the text
    normalizes to nothing. *)
Theorem cer_wer_same reference (normalize p n : bool) :
  ∃ q q',
    cer reference reference normalize p n = Ok q ∧ (q == 0)%Q ∧
    wer reference reference normalize p n = Ok q' ∧ (q' == 0)%Q.
Proof.
  rewrite cer_prepared, wer_prepared. cbv zeta. rewrite !metric_cases.
  destruct (prepared normalize p n reference) as [|c r] eqn:Hr;
    destruct (split _) as [|w ws] eqn:Hw; eexists _, _;
    (split; [done |]); (split; [|split; [done |]]);
    rewrite ?distance_refl; try done; apply true_div_zero.
Qed.

(** X6: on strings, [cer] and [wer] raise nothing but [ValueError], and
    exactly when the reference has no token while the hypothesis has
    one; a score that is returned is not negative. *)
Theorem cer_wer_errors reference hypothesis (normalize p n : bool) :
  let r := prepared normalize p n reference in
  let h := prepared normalize p n hypothesis in
  (∀ e, cer reference hypothesis normalize p n = Raise e ↔
        e = ValueError ∧ r = [] ∧ h ≠ []) ∧
  (∀ e, wer reference hypothesis normalize p n = Raise e ↔
        e = ValueError ∧ split r = [] ∧ split h ≠ []) ∧
  (∀ q, cer reference hypothesis normalize p n = Ok q → (0 <= q)%Q) ∧
  (∀ q, wer reference hypothesis normalize p n = Ok q → (0 <= q)%Q).
Proof.
  intros r h. rewrite cer_prepared, wer_prepared. cbv zeta. fold r h.
  rewrite !metric_cases. clearbody r h.
  assert (Hcase : ∀ (T : Type) (eq_dec : EqDecision T) (a b : list T),
    (∀ e, match a, b with
          | [], [] => Ok 0%Q
          | [], _ :: _ => Raise ValueError
          | _ :: _, _ => Ok (true_div (distance a b) (Z.of_nat (length a)))
          end = Raise e ↔ e = ValueError ∧ a = [] ∧ b ≠ []) ∧
    (∀ q, match a, b with
          | [], [] => Ok 0%Q
          | [], _ :: _ => Raise ValueError
          | _ :: _, _ => Ok (true_div (distance a b) (Z.of_nat (length a)))
          end = Ok q → (0 <= q)%Q)).
  { intros T eq_dec a b. split.
    - intros e. destruct a, b; split;
        first [by intros [= <-] | by intros (-> & _ & _) | by intros (_ & ? & ?)
              | done].
    - intros q. destruct a as [|x a], b as [|y b]; intros Hq; try discriminate.
      + replace q with 0%Q by congruence. apply Qle_refl.
      + replace q with (true_div (distance (x :: a) []) (Z.of_nat (length (x :: a))))
          by congruence.
        apply true_div_nonneg; [apply distance_nonneg | cbn [length]; lia].
      + replace q with
          (true_div (distance (x :: a) (y :: b)) (Z.of_nat (length (x :: a))))
          by congruence.
        apply true_div_nonneg; [apply distance_nonneg | cbn [length]; lia]. }
  destruct (Hcase _ _ r h) as [Hc1 Hc2].
  destruct (Hcase _ _ (split r) (split h)) as [Hw1 Hw2]. done.
Qed.

(** X7: when the reference has a token, the score is at most 1 if the
    hypothesis has no more tokens than the reference, and above 1 if it
    has more than twice as many. *)
Theorem cer_wer_range reference hypothesis (normalize p n : bool) :
  let r := prepared normalize p n reference in
  let h := prepared normalize p n hypothesis in
  (r ≠ [] →
     ∃ q, cer reference hypothesis normalize p n = Ok q ∧
          ((length h ≤ length r)%nat → (q <= 1)%Q) ∧
          ((2 * length r < length h)%nat → (1 < q)%Q)) ∧
  (split r ≠ [] →
     ∃ q, wer reference hypothesis normalize p n = Ok q ∧
          ((length (split h) ≤ length (split r))%nat → (q <= 1)%Q) ∧
          ((2 * length (split r) < length (split h))%nat → (1 < q)%Q)).
Proof.
  intros r h. rewrite cer_prepared, wer_prepared. cbv zeta. fold r h.
  rewrite !metric_cases. clearbody r h.
  assert (Hcase : ∀ (T : Type) (eq_dec : EqDecision T) (a b : list T),
    a ≠ [] →
    ∃ q, match a, b with
         | [], [] => Ok 0%Q
         | [], _ :: _ => Raise ValueError
         | _ :: _, _ => Ok (true_div (distance a b) (Z.of_nat (length a)))
         end = Ok q ∧
         ((length b ≤ length a)%nat → (q <= 1)%Q) ∧
         ((2 * length a < length b)%nat → (1 < q)%Q)).
  { intros T eq_dec a b Ha. destruct a as [|x a]; [done |].
    eexists. split; [done |]. pose proof (distance_bounds (x :: a) b) as Hb.
    cbn [length] in *. split; intros Hlen.
    - apply true_div_le_1; lia.
    - apply true_div_gt_1; lia. }
  split; intros Hr; by apply Hcase.
Qed.

End MetricExtras.

Lemma cer_wer_range_witness :
  (∃ q, @cer ascii_data (str "hi") (str "hello") true true true = Ok q ∧ (1 < q)%Q) ∧
  (∃ q, @wer ascii_data (str "a b") (str "a c") true true true = Ok q ∧ (q <= 1)%Q).
Proof.
  split.
  - destruct (@cer_wer_range ascii_data (str "hi") (str "hello") true true true)
      as [Hcer _].
    destruct Hcer as (q & Hq & _ & Hgt); [vm_compute; discriminate |].
    exists q. split; [exact Hq |]. apply Hgt. vm_compute. lia.
  - destruct (@cer_wer_range ascii_data (str "a b") (str "a c") true true true)
      as [_ Hwer].
    destruct Hwer as (q & Hq & Hle & _); [vm_compute; discriminate |].
    exists q. split; [exact Hq |]. apply Hle. vm_compute. lia.
Defined.

(** ** Whitespace and words *)

Section Words.
Context `{UnicodeData}.
Implicit Types s t cur : unicode.

Lemma isspace_32 : isspace 32 = true.
Proof. by rewrite isspace_ascii. Qed.

Lemma isdecimal_32 : isdecimal 32 = false.
Proof. by rewrite isdecimal_ascii. Qed.

Lemma split_from_sub_spaces s :
  (∀ cur, split_from cur (sub_spaces false s) = split_from cur s) ∧
  split_from [] (sub_spaces true s) = split_from [] s.
Proof.
  induction s as [|c s [IH1 IH2]]; [done |].
  cbn [sub_spaces split_from]. destruct (isspace c) eqn:Hc.
  - split; [|done]. intros cur. cbn [split_from]. rewrite isspace_32, IH2. done.
  - split; [intros cur|]; cbn [split_from]; by rewrite Hc, IH1.
Qed.

Lemma split_from_spaces_l l s :
  Forall (λ c, isspace c = true) l → split_from [] (l ++ s) = split_from [] s.
Proof.
  induction 1 as [|c l Hc _ IH]; [done |]. cbn [app split_from]. by rewrite Hc.
Qed.

Lemma split_from_spaces_r s r cur :
  Forall (λ c, isspace c = true) r → split_from cur (s ++ r) = split_from cur s.
Proof.
  intros Hr. revert cur. induction s as [|c s IH]; intros cur.
  - cbn [app]. revert cur. induction Hr as [|d r Hd _ IHr]; intros cur; [done |].
    cbn [split_from]. rewrite Hd, (IHr []). by destruct cur.
  - cbn [app split_from]. rewrite !IH. done.
Qed.

Lemma split_strip s : split (strip s) = split s.
Proof.
  destruct (strip_is_trim s) as [_ (l & r & Hs & Hl & Hr)]. unfold split.
  rewrite Hs at 2. by rewrite split_from_spaces_l, split_from_spaces_r.
Qed.

(** Collapsing and trimming the whitespace keeps the words. *)
Lemma split_whitespace_step s : split (strip (sub_spaces false s)) = split s.
Proof. rewrite split_strip. apply split_from_sub_spaces. Qed.

(** X8: with [normalize] set and both removals off, [wer] is [wer]
    without normalization on the canonical compositions of the two
    texts: the whitespace step does not change the words. *)
Theorem wer_whitespace_insensitive (reference hypothesis : unicode) (p n : bool) :
  wer reference hypothesis true false false =
  wer (nfc reference) (nfc hypothesis) false p n.
Proof.
  rewrite !wer_prepared. cbv zeta.
  assert (Hw : ∀ t, split (prepared true false false t) =
                    split (prepared false p n (nfc t))).
  { intros t. unfold prepared, normalized, strip_punctuation, strip_digits.
    rewrite <- sub_spaces_collapse_runs by done. apply split_whitespace_step. }
  by rewrite !Hw.
Qed.

End Words.

(** ** What the result of the normalizer contains *)

Section Contents.
Context `{UnicodeData}.
Implicit Types s t : unicode.

Lemma Forall_sub_spaces (P : Z → Prop) s b :
  P 32 → Forall P s → Forall P (sub_spaces b s).
Proof.
  intros H32 Hs. revert b. induction Hs as [|c s Hc _ IH]; intros b; [constructor |].
  cbn [sub_spaces]. destruct (isspace c), b; try apply IH; constructor; try done; apply IH.
Qed.

Lemma Forall_lstrip (P : Z → Prop) s : Forall P s → Forall P (lstrip s).
Proof.
  intros Hs. destruct (lstrip_spec s) as (l & Hl & _).
  rewrite Hl in Hs. by apply Forall_app in Hs as [_ ?].
Qed.

Lemma Forall_strip (P : Z → Prop) s : Forall P s → Forall P (strip s).
Proof.
  intros Hs. unfold strip, rstrip. apply Forall_reverse, Forall_lstrip.
  by apply Forall_reverse, Forall_lstrip.
Qed.

Lemma Forall_filter_keep (P Q : Z → Prop) `{∀ c, Decision (Q c)} s :
  Forall P s → Forall P (filter Q s).
Proof.
  induction 1 as [|c s Hc _ IH]; [constructor |]. rewrite filter_cons.
  case_decide; [by constructor | done].
Qed.

Lemma Forall_filter_holds (Q : Z → Prop) `{∀ c, Decision (Q c)} s :
  Forall Q (filter Q s).
Proof.
  induction s as [|c s IH]; [constructor |]. rewrite filter_cons.
  case_decide; [by constructor | done].
Qed.

Lemma space_not_punctuation : 32 ∉ string_punctuation ++ arabic_punctuation.
Proof. compute_done. Qed.

(** X9: when [remove_punctuation] is set the result of [normalize_text]
    holds none of the 38 punctuation characters, and when
    [remove_numbers] is set it holds no decimal digit. *)
Theorem normalize_text_removes t (p n : bool) :
  ∃ r, normalize_text (VStr t) p n = Ok r ∧
       (p = true → Forall (λ c, c ∉ string_punctuation ++ arabic_punctuation) r) ∧
       (n = true → Forall (λ c, isdecimal c = false) r).
Proof.
  eexists. split; [reflexivity |]. cbv zeta. split.
  - intros ->. rewrite translate_delete.
    assert (Hu : Forall (λ c, c ∉ string_punctuation ++ arabic_punctuation)
                   (strip (sub_spaces false
                      (filter (λ c, c ∉ string_punctuation ++ arabic_punctuation)
                         (nfc t))))).
    { apply Forall_strip, Forall_sub_spaces; [apply space_not_punctuation |].
      apply Forall_filter_holds. }
    destruct n; [|done]. by apply Forall_strip, Forall_filter_keep.
  - intros ->. apply Forall_strip. unfold sub_digits. apply Forall_filter_holds.
Qed.

End Contents.

(** ** Fixed points of the normalizer *)

Section FixedPoints.
Context `{UnicodeData}.
Implicit Types s t r : unicode.

Lemma sub_spaces_true_head s :
  match sub_spaces true s with [] => True | d :: _ => isspace d = false end.
Proof.
  induction s as [|c s IH]; [done |]. cbn [sub_spaces].
  by destruct (isspace c) eqn:Hc.
Qed.

Lemma single_spaced_sub_spaces s b : single_spaced (sub_spaces b s).
Proof.
  revert b. induction s as [|c s IH]; intros b; [done |]. cbn [sub_spaces].
  destruct (isspace c) eqn:Hc.
  - destruct b; [apply IH |]. cbn [single_spaced]. split; [|apply IH].
    intros _. split; [done | apply sub_spaces_true_head].
  - cbn [single_spaced]. split; [|apply IH]. intros Hc'. congruence.
Qed.

Lemma single_spaced_suffix l s : single_spaced (l ++ s) → single_spaced s.
Proof. induction l as [|c l IH]; [done |]. cbn. intros [_ ?]. by apply IH. Qed.

Lemma single_spaced_prefix s r : single_spaced (s ++ r) → single_spaced s.
Proof.
  induction s as [|c s IH]; [done |]. cbn [app single_spaced].
  intros [Hc Hs]. split; [|by apply IH].
  intros Hsp. destruct (Hc Hsp) as [-> Hnext]. split; [done |]. by destruct s.
Qed.

Lemma single_spaced_strip s : single_spaced s → single_spaced (strip s).
Proof.
  intros Hs. destruct (strip_is_trim s) as [_ (l & r & Heq & _)].
  rewrite Heq in Hs. by eapply single_spaced_prefix, single_spaced_suffix.
Qed.

Lemma sub_spaces_fixed s : single_spaced s → sub_spaces false s = s.
Proof.
  induction s as [|c s IH]; [done |]. cbn [single_spaced sub_spaces].
  intros [Hc Hs]. specialize (IH Hs). destruct (isspace c) eqn:Hsp.
  - destruct (Hc eq_refl) as [-> Hnext]. f_equal.
    destruct s as [|d s]; [done |]. cbn [sub_spaces] in *.
    rewrite Hnext in *. done.
  - by rewrite IH.
Qed.

Lemma lstrip_fixed s :
  match s with [] => True | c :: _ => isspace c = false end → lstrip s = s.
Proof. destruct s as [|c s]; [done |]. intros Hc. cbn [lstrip]. by rewrite Hc. Qed.

Lemma strip_fixed s : trimmed s → strip s = s.
Proof.
  intros [->|(c & d & Hhd & Hlast & Hc & Hd)]; [done |]. unfold strip, rstrip.
  rewrite (lstrip_fixed s); [|destruct s; [done | by injection Hhd as ->]].
  rewrite lstrip_fixed; [apply reverse_involutive |].
  destruct (reverse s) as [|e u] eqn:Hr; [done |].
  apply (f_equal reverse) in Hr. rewrite reverse_involutive, reverse_cons in Hr.
  rewrite Hr, last_snoc in Hlast. by injection Hlast as ->.
Qed.

Lemma filter_fixed (Q : Z → Prop) `{∀ c, Decision (Q c)} s :
  Forall Q s → filter Q s = s.
Proof.
  induction 1 as [|c s Hc _ IH]; [done |]. rewrite filter_cons.
  by rewrite decide_True, IH.
Qed.

(** A text in normal form is returned as it is. *)
Lemma normalize_text_fixed r (p n : bool) :
  nfc r = r →
  (p = true → Forall (λ c, c ∉ string_punctuation ++ arabic_punctuation) r) →
  (n = true → Forall (λ c, isdecimal c = false) r) →
  single_spaced r → trimmed r →
  normalize_text (VStr r) p n = Ok r.
Proof.
  intros Hnfc Hp Hn Hs Ht. unfold normalize_text. cbn [mbind result_bind]. cbv zeta.
  rewrite Hnfc, translate_delete.
  assert (Hu : (if p then filter (λ c, c ∉ string_punctuation ++ arabic_punctuation) r
                else r) = r).
  { destruct p; [|done]. by apply filter_fixed, Hp. }
  rewrite Hu, (sub_spaces_fixed r Hs), (strip_fixed r Ht).
  destruct n; [|done]. unfold sub_digits.
  rewrite (filter_fixed _ r (Hn eq_refl)). by rewrite (strip_fixed r Ht).
Qed.

End FixedPoints.

Section Passes.
Context `{UnicodeData}.
Implicit Types s t r : unicode.

Lemma normalized_contents t (p n : bool) :
  (p = true →
     Forall (λ c, c ∉ string_punctuation ++ arabic_punctuation) (normalized p n t)) ∧
  (n = true → Forall (λ c, isdecimal c = false) (normalized p n t)).
Proof.
  destruct (normalize_text_removes t p n) as (r & Hr & Hp & Hn).
  rewrite normalize_text_str in Hr.
  replace (normalized p n t) with r by congruence. done.
Qed.

Lemma normalized_keep_digits_single_spaced t (p : bool) :
  single_spaced (normalized p false t).
Proof.
  unfold normalized, strip_digits. rewrite <- sub_spaces_collapse_runs by done.
  apply single_spaced_strip, single_spaced_sub_spaces.
Qed.

(** On a text that canonical composition leaves alone and that holds
    none of the characters to remove, only the whitespace step acts. *)
Lemma normalized_clean r (p n : bool) :
  nfc r = r →
  (p = true → Forall (λ c, c ∉ string_punctuation ++ arabic_punctuation) r) →
  (n = true → Forall (λ c, isdecimal c = false) r) →
  normalized p n r = strip (sub_spaces false r).
Proof.
  intros Hnfc Hp Hn. unfold normalized, strip_punctuation, strip_digits.
  rewrite Hnfc.
  assert (Hu : (if p then filter (λ c, c ∉ ascii_punctuation_set ++ arabic_punctuation_set) r
                else r) = r).
  { destruct p; [|done]. by apply filter_fixed, Hp. }
  rewrite Hu, <- sub_spaces_collapse_runs by done.
  destruct n; [|done].
  rewrite filter_fixed; [apply strip_fixed, strip_trimmed |].
  apply Forall_strip, Forall_sub_spaces; [apply isdecimal_32 | by apply Hn].
Qed.

(** X10: with [remove_numbers] off, a second pass of [normalize_text]
    returns the result of the first, provided canonical composition
    leaves that result alone. *)
Theorem normalize_text_idempotent_keep_digits t r (p : bool) :
  normalize_text (VStr t) p false = Ok r →
  nfc r = r →
  normalize_text (VStr r) p false = Ok r.
Proof.
  intros Hr Hnfc. rewrite normalize_text_str in Hr.
  assert (Heq : r = normalized p false t) by congruence.
  apply normalize_text_fixed; [done | | done | |]; rewrite Heq.
  - apply normalized_contents.
  - apply normalized_keep_digits_single_spaced.
  - apply normalized_trimmed.
Qed.

(** X11: a third pass of [normalize_text] returns the result of the
    second, whatever the flags, provided canonical composition leaves
    the results of the first and of the second pass alone. *)
Theorem normalize_text_third_pass t r1 r2 (p n : bool) :
  normalize_text (VStr t) p n = Ok r1 →
  normalize_text (VStr r1) p n = Ok r2 →
  nfc r1 = r1 → nfc r2 = r2 →
  normalize_text (VStr r2) p n = Ok r2.
Proof.
  intros H1 H2 Hn1 Hn2. rewrite normalize_text_str in H1, H2.
  assert (He1 : r1 = normalized p n t) by congruence.
  assert (He2 : r2 = normalized p n r1) by congruence.
  destruct (normalized_contents t p n) as [Hp Hd]. rewrite <- He1 in Hp, Hd.
  rewrite (normalized_clean r1 p n Hn1 Hp Hd) in He2.
  apply normalize_text_fixed; [done | | | |]; rewrite He2.
  - intros Hpt. apply Forall_strip, Forall_sub_spaces;
      [apply space_not_punctuation | by apply Hp].
  - intros Hnt. apply Forall_strip, Forall_sub_spaces;
      [apply isdecimal_32 | by apply Hd].
  - apply single_spaced_strip, single_spaced_sub_spaces.
  - apply strip_trimmed.
Qed.

End Passes.

Lemma normalize_text_idempotent_keep_digits_witness :
  @normalize_text ascii_data (VStr (str "a 1  b!")) true false = Ok (str "a 1 b") ∧
  @normalize_text ascii_data (VStr (str "a 1 b")) true false = Ok (str "a 1 b").
Proof.
  split; [vm_compute; reflexivity |].
  apply (@normalize_text_idempotent_keep_digits ascii_data (str "a 1  b!"));
    vm_compute; reflexivity.
Defined.

Lemma normalize_text_third_pass_witness :
  @normalize_text ascii_data (VStr (str "a 1 b")) true true = Ok (str "a  b") ∧
  @normalize_text ascii_data (VStr (str "a  b")) true true = Ok (str "a b") ∧
  @normalize_text ascii_data (VStr (str "a b")) true true = Ok (str "a b").
Proof.
  split; [vm_compute; reflexivity |]. split; [vm_compute; reflexivity |].
  apply (@normalize_text_third_pass ascii_data (str "a 1 b") (str "a  b"));
    vm_compute; reflexivity.
Defined.

(** ** Swapping the two texts *)


Section Composition.
Context `{UnicodeData}.
Implicit Types reference hypothesis r h : unicode.


End Composition.

